(** * Git-Cheat: the commit date assigner

    A shallow embedding of the date randomisation and of the commit-to-date
    correlation of [gitcheat.py] and [git_transfer_fixed.py].

    - [generate_random_date_range] has the same text in both scripts and is
      embedded once.
    - The date-modification block of [transfer_repo] ("Step 2") differs
      between the scripts and is embedded twice, in [Module Gitcheat] and in
      [Module GitTransferFixed].

    Modelling conventions.
    - A naive [datetime] is a calendar day, given by its proleptic Gregorian
      ordinal, and a second of that day.  All values of the program have
      second resolution.  The ordinal is an unbounded integer: the limits
      [datetime.min] and [datetime.max] of the library are outside the model.
    - [datetime.strptime(s, "%Y-%m-%d")] is midnight of the parsed day; the
      parsed day is the input of the embedding.
    - [random] is a sequence of raw draws with a cursor; [randint a b] maps
      the next raw draw into [a..b], so that every value of the range is
      attainable and no other.
    - [logging] appends records to a log that is part of the state.
    - [datetime.timestamp()] is taken in a local zone with a fixed offset to
      UTC, a parameter of the development. *)

From Stdlib Require Import ZArith Lia Ascii.
From stdpp Require Import base list gmap strings sorting pretty.

Local Open Scope Z_scope.

(** ** [datetime] and [timedelta] *)

(** [timedelta]: a normalised pair with [0 <= td_seconds < 86400]. *)
Record timedelta := Timedelta { td_days : Z; td_seconds : Z }.

(** [timedelta(days=d, seconds=s)]: the constructor normalises by
    [divmod(s, 86400)] (floor division). *)
Definition mk_timedelta (d s : Z) : timedelta :=
  {| td_days := d + s / 86400; td_seconds := s mod 86400 |}.

Record datetime := Datetime { toordinal : Z; second_of_day : Z }.

(** [datetime.strptime(s, "%Y-%m-%d")] for the day with ordinal [day]. *)
Definition strptime (day : Z) : datetime :=
  {| toordinal := day; second_of_day := 0 |}.

(** [datetime.__sub__]:
    [timedelta(days1 - days2, secs1 - secs2)]. *)
Definition dt_sub (a b : datetime) : timedelta :=
  mk_timedelta (toordinal a - toordinal b) (second_of_day a - second_of_day b).

(** [datetime.__add__]: the datetime is turned into a timedelta from
    ordinal 0, the two are added and normalised, and the result is read
    back. *)
Definition dt_add (a : datetime) (t : timedelta) : datetime :=
  let delta := mk_timedelta (toordinal a + td_days t)
                            (second_of_day a + td_seconds t) in
  {| toordinal := td_days delta; second_of_day := td_seconds delta |}.

(** [datetime._cmp]: lexicographic comparison of the fields. *)
Definition dt_cmp (a b : datetime) : comparison :=
  match toordinal a ?= toordinal b with
  | Eq => second_of_day a ?= second_of_day b
  | c => c
  end.

(** [a >= b] *)
Definition dt_geb (a b : datetime) : bool :=
  match dt_cmp a b with Lt => false | _ => true end.

Definition dt_lt (a b : datetime) : Prop := dt_cmp a b = Lt.
Definition dt_le (a b : datetime) : Prop := dt_cmp a b <> Gt.



(** ** The state: random source and log *)

Inductive level := ERROR | WARNING | INFO.

Record world := World {
  draws : nat -> Z;               (* raw draws of the random source *)
  cursor : nat;                   (* how many have been consumed *)
  log : list (level * string)     (* records emitted so far *)
}.

Inductive exn := ValueError.

Inductive result (A : Type) :=
  | Ok (a : A)
  | Raise (e : exn).
Arguments Ok {A} a.
Arguments Raise {A} e.

Definition M (A : Type) : Type := world -> result A * world.

Global Instance M_ret : MRet M := fun A (a : A) w => (Ok a, w).

(** A raised exception skips the rest; the state reached so far is kept. *)
Global Instance M_bind : MBind M := fun A B (f : A -> M B) (m : M A) w =>
  match m w with
  | (Ok a, w') => f a w'
  | (Raise e, w') => (Raise e, w')
  end.

Definition logging (lv : level) (msg : string) : M unit :=
  fun w => (Ok tt, {| draws := draws w; cursor := cursor w;
                      log := log w ++ [(lv, msg)] |}).

(** [random.randint(a, b)]: [ValueError] on an empty range, otherwise the
    next raw draw folded into [a..b]. *)
Definition randint (a b : Z) : M Z :=
  fun w => if b <? a then (Raise ValueError, w)
           else (Ok (a + draws w (cursor w) mod (b - a + 1)),
                 {| draws := draws w; cursor := S (cursor w); log := log w |}).

(** [for _ in range(n): acc = body(acc)] *)
Fixpoint for_range {A} (n : nat) (body : A -> M A) (acc : A) : M A :=
  match n with
  | O => mret acc
  | S k => acc' ← body acc; for_range k body acc'
  end.

(** ** [generate_random_date_range] (both scripts) *)

Global Instance dt_le_dec a b : Decision (dt_le a b).
Proof. unfold dt_le. destruct (dt_cmp a b); [left | left | right]; congruence. Defined.

Definition generate_random_date_range
    (start_date end_date : Z) (num_commits : Z) : M (list datetime) :=
  let start := strptime start_date in
  let end_ := strptime end_date in
  if dt_geb start end_ then
    logging ERROR "Start date must be before end date";;
    mret []
  else
    let time_diff := dt_sub end_ start in
    dates ← for_range (Z.to_nat num_commits)
               (fun dates =>
                  random_days ← randint 0 (td_days time_diff);
                  random_seconds ← randint 0 86400;
                  let random_date :=
                    dt_add start (mk_timedelta random_days random_seconds) in
                  mret (dates ++ [random_date]))
               [];
    mret (merge_sort dt_le dates).

(** [int(d.timestamp())] for a naive datetime, in a local zone that is
    [utcoffset] seconds ahead of UTC; 719163 is the ordinal of 1970-01-01.
    The float is integral at second resolution, so [int] changes nothing. *)
Definition timestamp (utcoffset : Z) (d : datetime) : Z :=
  (toordinal d - 719163) * 86400 + second_of_day d - utcoffset.

(** ** Step 2 of [transfer_repo] in [gitcheat.py]

    The block from "Generate random dates" to the end of the filter script.
    [commit_count] was measured before the author rewrite; [commits] is the
    list of non-blank lines of [git log --all --format='%H' --reverse]. *)
Module Gitcheat.
Section Step2.
Variable utcoffset : Z.

(** One arm of the [case $GIT_COMMIT in ... esac] script: the pattern (a
    commit hash) and the timestamp exported as author and committer
    date. *)
Definition arm : Type := (string * Z)%type.

(** [for i, commit in enumerate(commits): if i < len(random_dates): ...] *)
Fixpoint env_filter_loop (i : nat) (commits : list string)
    (random_dates : list datetime) (env_filter : list arm) : list arm :=
  match commits with
  | [] => env_filter
  | commit :: rest =>
      let env_filter' :=
        if decide (i < length random_dates)%nat then
          match random_dates !! i with
          | Some d => env_filter ++ [(commit, timestamp utcoffset d)]
          | None => env_filter
          end
        else env_filter in
      env_filter_loop (S i) rest random_dates env_filter'
  end.

Definition transfer_repo_modify_dates (start_date end_date commit_count : Z)
    (commits : list string) : M (list arm) :=
  random_dates ← generate_random_date_range start_date end_date commit_count;
  mret (env_filter_loop 0 commits random_dates []).

(** What the shell does with the script for a commit: the first arm whose
    pattern is the commit applies; the final catch-all arm changes nothing.
    (Hashes are hexadecimal, so a pattern matches its own text only.) *)
Fixpoint case_lookup (env_filter : list arm) (git_commit : string)
    : option Z :=
  match env_filter with
  | [] => None
  | (pat, t) :: rest =>
      if decide (pat = git_commit) then Some t
      else case_lookup rest git_commit
  end.
End Step2.
End Gitcheat.

(** ** Step 2 of [transfer_repo] in [git_transfer_fixed.py]

    The block from "Generate random dates" to the end of the loop that fills
    [commit_date_map].  [commit_count] is the count taken again after the
    author rewrite; [commits] is the list of stripped non-blank lines of
    [git log --all --format='%H' --reverse].  The test
    [len(commits) > len(random_dates)] is written with [<], its sides
    swapped.  What follows the loop (the filter script written from the
    mapping and the call of git filter-branch) consumes the mapping and is
    not part of the embedding. *)
Module GitTransferFixed.
Section Step2.
Variable utcoffset : Z.

Definition mismatch_message (ncommits ndates : nat) : string :=
  "Commit count mismatch: " +:+ pretty ncommits +:+ " commits vs "
    +:+ pretty ndates +:+ " dates".

(** [for i, commit in enumerate(commits): if i < len(random_dates):
    commit_date_map[commit] = int(random_dates[i].timestamp())] *)
Fixpoint commit_date_map_loop (i : nat) (commits : list string)
    (random_dates : list datetime) (commit_date_map : gmap string Z)
    : gmap string Z :=
  match commits with
  | [] => commit_date_map
  | commit :: rest =>
      let commit_date_map' :=
        if decide (i < length random_dates)%nat then
          match random_dates !! i with
          | Some d => <[commit := timestamp utcoffset d]> commit_date_map
          | None => commit_date_map
          end
        else commit_date_map in
      commit_date_map_loop (S i) rest random_dates commit_date_map'
  end.

Definition transfer_repo_modify_dates (start_date end_date commit_count : Z)
    (commits : list string) : M (gmap string Z) :=
  random_dates ← generate_random_date_range start_date end_date commit_count;
  random_dates ←
    (if decide (length commits ≠ length random_dates) then
       logging WARNING
         (mismatch_message (length commits) (length random_dates));;
       if decide (length random_dates < length commits)%nat then
         generate_random_date_range start_date end_date
           (Z.of_nat (length commits))
       else mret random_dates
     else mret random_dates);
  mret (commit_date_map_loop 0 commits random_dates ∅).
End Step2.
End GitTransferFixed.

(** ** Closed form of the generation loop

    The [k]-th candidate is built from the raw draws at positions
    [pos] and [pos + 1]. *)
Definition span_days (start_date end_date : Z) : Z :=
  td_days (dt_sub (strptime end_date) (strptime start_date)).

Definition candidate (start_date end_date : Z) (f : nat -> Z) (pos : nat)
    : datetime :=
  dt_add (strptime start_date)
    (mk_timedelta (0 + f pos mod (span_days start_date end_date - 0 + 1))
                  (0 + f (S pos) mod (86400 - 0 + 1))).

Definition candidates (start_date end_date : Z) (w : world) (n : nat)
    : list datetime :=
  (fun k => candidate start_date end_date (draws w) (cursor w + 2 * k)%nat)
    <$> seq 0 n.

Definition advance (k : nat) (w : world) : world :=
  {| draws := draws w; cursor := (k + cursor w)%nat; log := log w |}.

Definition logged (lv : level) (msg : string) (w : world) : world :=
  {| draws := draws w; cursor := cursor w; log := log w ++ [(lv, msg)] |}.

(** A random source that starts with the given raw draws and goes on with
    zeros, and the initial state over it. *)
Definition draws_of (l : list Z) : nat -> Z := fun n => nth n l 0.
Definition initial (l : list Z) : world :=
  {| draws := draws_of l; cursor := 0; log := [] |}.

(** ** Text: [str.startswith], [str.replace] *)

(** [s.startswith(p)] *)
Fixpoint startswith (p s : string) : bool :=
  match p, s with
  | EmptyString, _ => true
  | String a p', String b s' =>
      if decide (a = b) then startswith p' s' else false
  | String _ _, EmptyString => false
  end.

(** [s.replace(old, new)] for a non-empty [old]: the occurrences of [old]
    are replaced from left to right, the search going on after each one.
    [skip] counts the characters of an occurrence still to be passed. *)
Fixpoint replace_from (old new : string) (skip : nat) (s : string) : string :=
  match s with
  | EmptyString => EmptyString
  | String c s' =>
      match skip with
      | S n => replace_from old new n s'
      | O =>
          if startswith old s
          then new +:+ replace_from old new (String.length old - 1) s'
          else String c (replace_from old new 0 s')
      end
  end.

Definition str_replace (old new s : string) : string := replace_from old new 0 s.

(** ** Regular expressions: the part of [re] the two patterns use

    A text is the sequence of the bytes of its UTF-8 encoding.  The
    patterns name ASCII characters only, and no byte of a longer UTF-8
    sequence is an ASCII character, so matching bytes is matching code
    points. *)

Inductive regex :=
  | Eps
  | Lit (c : ascii)                    (* a literal character *)
  | PlusLazy (cs : list ascii)         (* [^cs]+? *)
  | PlusGreedy (cs : list ascii)       (* [^cs]+ *)
  | Cat (r1 r2 : regex)
  | Opt (r : regex)                    (* r? *)
  | Group (n : nat) (r : regex)        (* the n-th capturing group *)
  | EndAnchor.                         (* $ *)

Definition captures : Type := list (nat * string).

(** [m.group(n)]: the last text the group captured on the way to the
    match. *)
Fixpoint group (n : nat) (caps : captures) : option string :=
  match caps with
  | [] => None
  | (k, t) :: rest => if decide (k = n) then Some t else group n rest
  end.

(** One or more characters outside [cs], as few as possible: the rest of
    the pattern is tried after each character, the shortest run first. *)
Fixpoint plus_lazy {X} (cs : list ascii) (s : string)
    (k : string -> option X) : option X :=
  match s with
  | EmptyString => None
  | String c s' =>
      if decide (c ∈ cs) then None
      else match k s' with
           | Some x => Some x
           | None => plus_lazy cs s' k
           end
  end.

(** One or more characters outside [cs], as many as possible: the longest
    run is tried first, then the engine backtracks one character at a
    time. *)
Fixpoint plus_greedy {X} (cs : list ascii) (s : string)
    (k : string -> option X) : option X :=
  match s with
  | EmptyString => None
  | String c s' =>
      if decide (c ∈ cs) then None
      else match plus_greedy cs s' k with
           | Some x => Some x
           | None => k s'
           end
  end.

(** [$] without [re.MULTILINE]: at the end of the text, or just before a
    newline that ends the text. *)
Definition at_end (s : string) : bool :=
  match s with
  | EmptyString => true
  | String c EmptyString => if decide (c = "010"%char) then true else false
  | _ => false
  end.

(** The text between the start [s] of a group and the rest [s'] left when
    the group is done. *)
Definition consumed (s s' : string) : string :=
  String.substring 0 (String.length s - String.length s') s.

(** The backtracking matcher, with the rest of the pattern as a
    continuation [k]. *)
Fixpoint rmatch (r : regex) (s : string) (caps : captures)
    (k : string -> captures -> option captures) : option captures :=
  match r with
  | Eps => k s caps
  | Lit c =>
      match s with
      | String c' s' => if decide (c = c') then k s' caps else None
      | EmptyString => None
      end
  | PlusLazy cs => plus_lazy cs s (fun s' => k s' caps)
  | PlusGreedy cs => plus_greedy cs s (fun s' => k s' caps)
  | Cat r1 r2 => rmatch r1 s caps (fun s' caps' => rmatch r2 s' caps' k)
  | Opt r1 =>
      match rmatch r1 s caps k with
      | Some x => Some x
      | None => k s caps
      end
  | Group n r1 =>
      rmatch r1 s caps (fun s' caps' => k s' ((n, consumed s s') :: caps'))
  | EndAnchor => if at_end s then k s caps else None
  end.

(** [re.search(r, s)]: the match at the leftmost position that has one. *)
Fixpoint search (r : regex) (s : string) : option captures :=
  match rmatch r s [] (fun _ caps => Some caps) with
  | Some caps => Some caps
  | None =>
      match s with
      | String _ s' => search r s'
      | EmptyString => None
      end
  end.

Fixpoint lit (s : string) : regex :=
  match s with
  | EmptyString => Eps
  | String c s' => Cat (Lit c) (lit s')
  end.

(** [r"/([^/]+?)(\.git)?$"] *)
Definition standard_pattern : regex :=
  Cat (Lit "/") (Cat (Group 1 (PlusLazy ["/"%char]))
    (Cat (Opt (Group 2 (lit ".git"))) EndAnchor)).

(** [r"github\.com/[^/]+/([^/\.]+)"] *)
Definition github_pattern : regex :=
  Cat (lit "github.com/") (Cat (PlusGreedy ["/"%char])
    (Cat (Lit "/") (Group 1 (PlusGreedy ["/"; "."]%char)))).

(** ** [extract_repo_name] (both scripts)

    Group 1 takes part in every match of either pattern, so [m.group(1)]
    is a text; [default] is never reached. *)
Definition extract_repo_name (url : string) : M (option string) :=
  match search standard_pattern url with
  | Some m =>
      mret (Some (str_replace ".git" EmptyString
                    (default EmptyString (group 1 m))))
  | None =>
      match search github_pattern url with
      | Some github_match =>
          mret (Some (default EmptyString (group 1 github_match)))
      | None =>
          logging ERROR
            ("Could not extract repository name from URL: " +:+ url);;
          mret None
      end
  end.

(** ** [validate_repo_url] (both scripts)

    [exit(1)] raises [SystemExit], which unwinds the script. *)
Inductive outcome (A : Type) :=
  | Returned (a : A)
  | Raised (e : exn)
  | Exited (code : Z).
Arguments Returned {A} a.
Arguments Raised {A} e.
Arguments Exited {A} code.

Definition Script (A : Type) : Type := world -> outcome A * world.

Global Instance Script_ret : MRet Script := fun A (a : A) w => (Returned a, w).

Global Instance Script_bind : MBind Script :=
  fun A B (f : A -> Script B) (m : Script A) w =>
    match m w with
    | (Returned a, w') => f a w'
    | (Raised e, w') => (Raised e, w')
    | (Exited code, w') => (Exited code, w')
    end.

Definition lift {A} (m : M A) : Script A :=
  fun w => match m w with
           | (Ok a, w') => (Returned a, w')
           | (Raise e, w') => (Raised e, w')
           end.

Definition exit {A} (code : Z) : Script A := fun w => (Exited code, w).

Definition validate_repo_url (url : string) : Script unit :=
  if negb (startswith "http://" url || startswith "https://" url
           || startswith "git@" url)
  then
    lift (logging ERROR ("Invalid repository URL: " +:+ url));;
    exit 1
  else mret tt.

(** ** Escaping the replacement texts for the commit callback

    The texts are put between single quotes in the Python source of the
    callback: [message.replace('<old>', '<new>')]. *)
Definition backslash : ascii := ascii_of_nat 92.
Definition quote : ascii := "'"%char.
Definition newline : ascii := "010"%char.




Definition occurs (c : ascii) (s : string) : Prop :=
  c ∈ String.list_ascii_of_string s.

(** * Properties *)

(** ** The order on datetimes *)

Lemma dt_lt_iff a b :
  dt_lt a b <->
  toordinal a < toordinal b \/
  (toordinal a = toordinal b /\ second_of_day a < second_of_day b).
Proof.
  unfold dt_lt, dt_cmp.
  destruct (Z.compare_spec (toordinal a) (toordinal b));
    destruct (Z.compare_spec (second_of_day a) (second_of_day b));
    split; intros; try discriminate; try lia; reflexivity.
Qed.

Lemma dt_le_iff a b :
  dt_le a b <->
  toordinal a < toordinal b \/
  (toordinal a = toordinal b /\ second_of_day a <= second_of_day b).
Proof.
  unfold dt_le, dt_cmp.
  destruct (Z.compare_spec (toordinal a) (toordinal b));
    destruct (Z.compare_spec (second_of_day a) (second_of_day b));
    split; intros; try discriminate; try lia; congruence.
Qed.

Lemma dt_geb_false a b : dt_geb a b = false <-> dt_lt a b.
Proof. unfold dt_geb, dt_lt. destruct (dt_cmp a b); split; congruence. Qed.

Lemma dt_geb_true a b : dt_geb a b = true <-> dt_le b a.
Proof.
  rewrite dt_le_iff. unfold dt_geb, dt_cmp.
  destruct (Z.compare_spec (toordinal a) (toordinal b));
    destruct (Z.compare_spec (second_of_day a) (second_of_day b));
    split; intros; try discriminate; try lia; reflexivity.
Qed.

Global Instance dt_le_total : Total dt_le.
Proof. intros a b. rewrite !dt_le_iff. lia. Qed.

Global Instance dt_le_trans : Transitive dt_le.
Proof. intros a b c. rewrite !dt_le_iff. lia. Qed.

Lemma dt_le_refl a : dt_le a a.
Proof. rewrite dt_le_iff. lia. Qed.





(** ** Arithmetic of the library operations *)




Lemma strptime_lt s e : dt_lt (strptime s) (strptime e) <-> s < e.
Proof. rewrite dt_lt_iff. unfold strptime. simpl. lia. Qed.

Lemma span_days_eq s e : span_days s e = e - s.
Proof.
  unfold span_days, dt_sub, mk_timedelta, strptime. simpl.
  change (0 - 0) with 0. rewrite Z.div_0_l by lia. lia.
Qed.


(** ** The monad on the generation loop *)

Lemma bind_ok {A B} (m : M A) (f : A -> M B) w a w' :
  m w = (Ok a, w') -> (m ≫= f) w = f a w'.
Proof. intros H. unfold mbind, M_bind. rewrite H. reflexivity. Qed.

Lemma randint_ok a b w :
  a <= b ->
  randint a b w = (Ok (a + draws w (cursor w) mod (b - a + 1)), advance 1 w).
Proof.
  intros Hab. unfold randint.
  destruct (Z.ltb_spec b a); [lia | reflexivity].
Qed.

Lemma advance_advance j k w : advance j (advance k w) = advance (j + k) w.
Proof. unfold advance. simpl. f_equal. lia. Qed.

Lemma advance_0 w : advance 0 w = w.
Proof. destruct w. reflexivity. Qed.

Lemma candidates_S s e w n :
  candidates s e w (S n) =
  candidate s e (draws w) (cursor w) :: candidates s e (advance 2 w) n.
Proof.
  unfold candidates. simpl. f_equal.
  - f_equal. lia.
  - rewrite <- fmap_S_seq, <- list_fmap_compose.
    apply list_fmap_ext. intros _ k _. simpl. f_equal. lia.
Qed.

Lemma length_candidates s e w n : length (candidates s e w n) = n.
Proof. unfold candidates. rewrite length_fmap. apply length_seq. Qed.

Lemma generation_loop s e n : forall acc w,
  s < e ->
  for_range n
    (fun dates =>
       random_days ← randint 0 (td_days (dt_sub (strptime e) (strptime s)));
       random_seconds ← randint 0 86400;
       mret (dates ++
             [dt_add (strptime s) (mk_timedelta random_days random_seconds)]))
    acc w
  = (Ok (acc ++ candidates s e w n), advance (2 * n) w).
Proof.
  induction n as [|n IH]; intros acc w Hlt.
  - simpl. rewrite advance_0. unfold candidates. simpl.
    rewrite app_nil_r. reflexivity.
  - cbn [for_range].
    pose proof (span_days_eq s e) as Hsp. unfold span_days in Hsp.
    erewrite bind_ok; cycle 1.
    { erewrite bind_ok by (apply randint_ok; lia).
      erewrite bind_ok by (apply randint_ok; lia).
      reflexivity. }
    rewrite IH by assumption. rewrite candidates_S.
    rewrite !advance_advance. rewrite <- app_assoc. simpl.
    do 2 f_equal. lia.
Qed.

(** The function on a valid range: no exception, two draws per commit, the
    log untouched, the sorted candidates returned. *)
Lemma generate_valid s e n w :
  s < e ->
  generate_random_date_range s e n w =
  (Ok (merge_sort dt_le (candidates s e w (Z.to_nat n))),
   advance (2 * Z.to_nat n) w).
Proof.
  intros Hlt. unfold generate_random_date_range.
  assert (dt_geb (strptime s) (strptime e) = false) as ->.
  { apply dt_geb_false, strptime_lt, Hlt. }
  erewrite bind_ok by (apply generation_loop; exact Hlt).
  reflexivity.
Qed.

(** The function on an invalid range. *)
Lemma generate_invalid s e n w :
  e <= s ->
  generate_random_date_range s e n w =
  (Ok [], logged ERROR "Start date must be before end date" w).
Proof.
  intros Hle. unfold generate_random_date_range.
  assert (dt_geb (strptime s) (strptime e) = true) as ->.
  { apply dt_geb_true, dt_le_iff. unfold strptime. simpl. lia. }
  reflexivity.
Qed.

(** ** What the generated dates are *)






(** ** The claims on [generate_random_date_range] *)

(** C4: for a range with [start == end] or [start > end] and every count,
    the function reports the invalid range (the error record "Start date
    must be before end date") and yields the empty list; no random draw is
    consumed. *)
Theorem invalid_range_yields_empty (start_date end_date count : Z) (w : world) :
  strptime start_date = strptime end_date \/
  dt_lt (strptime end_date) (strptime start_date) ->
  generate_random_date_range start_date end_date count w =
  (Ok [], {| draws := draws w; cursor := cursor w;
             log := log w ++ [(ERROR, "Start date must be before end date")] |}).
Proof.
  intros H. apply generate_invalid.
  destruct H as [H | H].
  - injection H. lia.
  - apply strptime_lt in H. lia.
Qed.

Lemma invalid_range_yields_empty_witness :
  (strptime 737426 = strptime 737426 \/
   dt_lt (strptime 737426) (strptime 737426)) /\
  (strptime 737425 = strptime 737426 \/
   dt_lt (strptime 737425) (strptime 737426)) /\
  fst (generate_random_date_range 737426 737426 3 (initial [4; 5])) = Ok [] /\
  fst (generate_random_date_range 737426 737425 3 (initial [4; 5])) = Ok [].
Proof.
  split; [left; reflexivity |]. split; [right; reflexivity |]. split.
  - rewrite (invalid_range_yields_empty 737426 737426 3 (initial [4; 5]));
      [reflexivity | left; reflexivity].
  - rewrite (invalid_range_yields_empty 737426 737425 3 (initial [4; 5]));
      [reflexivity | right; reflexivity].
Defined.

(** C5: on a valid range the function returns, and the returned sequence is
    sorted ascending (non-decreasing).  Duplicates are permitted: a random
    source that repeats its draws yields the same timestamp twice. *)
Theorem generated_dates_sorted (start_date end_date count : Z) (w : world) :
  dt_lt (strptime start_date) (strptime end_date) ->
  (exists dates w',
     generate_random_date_range start_date end_date count w = (Ok dates, w') /\
     StronglySorted dt_le dates) /\
  (exists d w',
     generate_random_date_range start_date end_date 2 (initial []) =
     (Ok [d; d], w')).
Proof.
  intros Hlt. apply strptime_lt in Hlt. split.
  - eexists _, _. split; [apply generate_valid; exact Hlt |].
    apply StronglySorted_merge_sort; apply _.
  - eexists _, _. rewrite generate_valid by exact Hlt.
    change (Z.to_nat 2) with 2%nat. unfold candidates. simpl.
    unfold merge_sort. simpl.
    change (candidate start_date end_date (draws_of []) 2)
      with (candidate start_date end_date (draws_of []) 0).
    destruct (decide _); reflexivity.
Qed.

Lemma generated_dates_sorted_witness :
  dt_lt (strptime 737425) (strptime 737426) /\
  exists dates w',
    generate_random_date_range 737425 737426 3 (initial [1; 9; 0; 5; 0; 7]) =
    (Ok dates, w') /\ StronglySorted dt_le dates.
Proof.
  split; [reflexivity |].
  apply (generated_dates_sorted 737425 737426 3 (initial [1; 9; 0; 5; 0; 7])).
  reflexivity.
Defined.





(** C8: on a valid range, a call with [count = 0] returns the empty
    sequence; it draws nothing and logs nothing. *)
Theorem zero_count_yields_empty (start_date end_date : Z) (w : world) :
  dt_lt (strptime start_date) (strptime end_date) ->
  generate_random_date_range start_date end_date 0 w = (Ok [], w).
Proof.
  intros Hlt. apply strptime_lt in Hlt.
  rewrite generate_valid by exact Hlt.
  change (Z.to_nat 0) with 0%nat. simpl. rewrite advance_0. reflexivity.
Qed.

Lemma zero_count_yields_empty_witness :
  dt_lt (strptime 737425) (strptime 737426) /\
  generate_random_date_range 737425 737426 0 (initial [3; 4]) =
  (Ok [], initial [3; 4]).
Proof.
  split; [reflexivity |].
  apply (zero_count_yields_empty 737425 737426 (initial [3; 4])).
  reflexivity.
Defined.



(** C2: the strict upper bound [value < end + 1 day] fails.  For the range
    2020-01-01 .. 2020-01-02 and the draws [random_days = 1],
    [random_seconds = 86400] the function returns 2020-01-03 00:00:00, which
    is [end + 1 day] itself. *)
Theorem strict_upper_bound_fails :
  dt_lt (strptime 737425) (strptime 737426) /\
  generate_random_date_range 737425 737426 1 (initial [1; 86400]) =
  (Ok [{| toordinal := 737427; second_of_day := 0 |}],
   advance 2 (initial [1; 86400])) /\
  dt_add (strptime 737426) (mk_timedelta 1 0) =
  {| toordinal := 737427; second_of_day := 0 |} /\
  ~ dt_lt {| toordinal := 737427; second_of_day := 0 |}
          (dt_add (strptime 737426) (mk_timedelta 1 0)).
Proof.
  split; [reflexivity |]. split; [vm_compute; reflexivity |].
  split; [reflexivity |]. vm_compute. discriminate.
Qed.

(** ** The correlation loops *)



Global Instance dt_le_reflexive : Reflexive dt_le.
Proof. intros a. apply dt_le_refl. Qed.

Lemma guarded_lookup {A B} (l : list A) (i : nat) (f : A -> B) (b : B) :
  (if decide (i < length l)%nat then
     match l !! i with Some d => f d | None => b end
   else b) =
  match l !! i with Some d => f d | None => b end.
Proof.
  destruct (decide _) as [|Hge]; [reflexivity |].
  rewrite lookup_ge_None_2 by lia. reflexivity.
Qed.

Section Correlation.
Variable utcoffset : Z.

Local Abbreviation map_loop := (GitTransferFixed.commit_date_map_loop utcoffset).
Local Abbreviation arms_loop := (Gitcheat.env_filter_loop utcoffset).
Local Abbreviation ts := (timestamp utcoffset).

Lemma map_loop_notin commits : forall i dates (m : gmap string Z) c,
  c ∉ commits -> map_loop i commits dates m !! c = m !! c.
Proof.
  induction commits as [|a rest IH]; intros i dates m c Hc; [reflexivity |].
  apply not_elem_of_cons in Hc as [Hne Hc]. cbn [GitTransferFixed.commit_date_map_loop].
  rewrite guarded_lookup, IH by assumption.
  destruct (dates !! i); [apply lookup_insert_ne; congruence | reflexivity].
Qed.




Lemma arms_loop_app commits : forall i dates acc,
  arms_loop i commits dates acc = acc ++ arms_loop i commits dates [].
Proof.
  induction commits as [|a rest IH]; intros i dates acc.
  - simpl. rewrite app_nil_r. reflexivity.
  - cbn [Gitcheat.env_filter_loop]. rewrite !guarded_lookup.
    destruct (dates !! i).
    + rewrite IH. rewrite (IH _ _ ([] ++ _)). rewrite <- app_assoc.
      reflexivity.
    + apply IH.
Qed.

Lemma arms_loop_length commits : forall i dates,
  length (arms_loop i commits dates []) =
  Nat.min (length commits) (length dates - i).
Proof.
  induction commits as [|a rest IH]; intros i dates; [reflexivity |].
  cbn [Gitcheat.env_filter_loop]. rewrite guarded_lookup.
  destruct (dates !! i) eqn:E.
  - apply lookup_lt_Some in E. rewrite arms_loop_app, length_app, IH.
    cbn [length app]. lia.
  - apply lookup_ge_None in E. rewrite IH. cbn [length]. lia.
Qed.


End Correlation.

(** ** The date-modification step of the two scripts *)

Section Steps.
Variable utcoffset : Z.
Variables (start_date end_date commit_count : Z) (commits : list string).
Variables (w w1 : world) (dates : list datetime).
Hypothesis Hgen :
  generate_random_date_range start_date end_date commit_count w
  = (Ok dates, w1).

Lemma gitcheat_step :
  Gitcheat.transfer_repo_modify_dates utcoffset
    start_date end_date commit_count commits w =
  (Ok (Gitcheat.env_filter_loop utcoffset 0 commits dates []), w1).
Proof.
  unfold Gitcheat.transfer_repo_modify_dates.
  erewrite bind_ok by exact Hgen. reflexivity.
Qed.

Lemma fixed_step_equal :
  length commits = length dates ->
  GitTransferFixed.transfer_repo_modify_dates utcoffset
    start_date end_date commit_count commits w =
  (Ok (GitTransferFixed.commit_date_map_loop utcoffset 0 commits dates ∅), w1).
Proof.
  intros Hlen. unfold GitTransferFixed.transfer_repo_modify_dates.
  erewrite bind_ok by exact Hgen.
  destruct (decide (length commits ≠ length dates)); [contradiction |].
  reflexivity.
Qed.


Lemma fixed_step_regenerate dates2 w2 :
  (length dates < length commits)%nat ->
  generate_random_date_range start_date end_date (Z.of_nat (length commits))
    (logged WARNING
       (GitTransferFixed.mismatch_message (length commits) (length dates)) w1)
  = (Ok dates2, w2) ->
  GitTransferFixed.transfer_repo_modify_dates utcoffset
    start_date end_date commit_count commits w =
  (Ok (GitTransferFixed.commit_date_map_loop utcoffset 0 commits dates2 ∅), w2).
Proof.
  intros Hlen Hgen2. unfold GitTransferFixed.transfer_repo_modify_dates.
  erewrite bind_ok by exact Hgen.
  destruct (decide (length commits ≠ length dates)); [| lia].
  erewrite bind_ok; cycle 1.
  { erewrite bind_ok by reflexivity.
    destruct (decide (length dates < length commits)%nat); [| lia].
    exact Hgen2. }
  reflexivity.
Qed.
End Steps.

(** ** The claims on the correlation *)









(** * Further properties of the date generation and of the correlation *)


(** X1: on a valid range the function reads exactly two raw draws for each
    requested date and logs nothing, and what it returns is a rearrangement
    of the candidates built from the consecutive pairs of draws: sorting
    neither drops nor repeats a candidate. *)
Theorem generation_reads_two_draws_per_date
    (start_date end_date count : Z) (w : world) :
  dt_lt (strptime start_date) (strptime end_date) ->
  exists dates,
    generate_random_date_range start_date end_date count w =
    (Ok dates, {| draws := draws w;
                  cursor := (2 * Z.to_nat count + cursor w)%nat;
                  log := log w |}) /\
    dates ≡ₚ
      (fun k => dt_add (strptime start_date)
                  (mk_timedelta
                     (draws w (cursor w + 2 * k)%nat
                        mod (span_days start_date end_date + 1))
                     (draws w (S (cursor w + 2 * k))%nat mod 86401)))
      <$> seq 0 (Z.to_nat count).
Proof.
  intros Hlt. apply strptime_lt in Hlt.
  eexists. split; [apply generate_valid; exact Hlt |].
  rewrite merge_sort_Permutation. unfold candidates.
  apply reflexive_eq, list_fmap_ext. intros _ k _.
  unfold candidate. rewrite !Z.add_0_l, !Z.sub_0_r. reflexivity.
Qed.

Lemma generation_reads_two_draws_per_date_witness :
  dt_lt (strptime 737425) (strptime 737426) /\
  exists dates,
    generate_random_date_range 737425 737426 2 (initial [1; 9; 0; 5; 8]) =
    (Ok dates, {| draws := draws_of [1; 9; 0; 5; 8]; cursor := 4; log := [] |})
    /\ dates ≡ₚ [Datetime 737426 9; Datetime 737425 5].
Proof.
  split; [reflexivity |].
  destruct (generation_reads_two_draws_per_date 737425 737426 2
              (initial [1; 9; 0; 5; 8])) as (dates & H1 & H2);
    [reflexivity |].
  exists dates. split; [exact H1 | exact H2].
Defined.

(** X2: on a valid range a negative count behaves like zero: [range] of a
    negative number is empty, so the result is the empty list and the state
    is untouched. *)
Theorem negative_count_yields_empty (start_date end_date count : Z) (w : world) :
  dt_lt (strptime start_date) (strptime end_date) ->
  count <= 0 ->
  generate_random_date_range start_date end_date count w = (Ok [], w).
Proof.
  intros Hlt Hc. apply strptime_lt in Hlt.
  rewrite generate_valid by exact Hlt.
  replace (Z.to_nat count) with 0%nat by lia.
  simpl. rewrite advance_0. reflexivity.
Qed.

Lemma negative_count_yields_empty_witness :
  dt_lt (strptime 737425) (strptime 737426) /\ -3 <= 0 /\
  generate_random_date_range 737425 737426 (-3) (initial [4; 5]) =
  (Ok [], initial [4; 5]).
Proof.
  split; [reflexivity |]. split; [lia |].
  apply (negative_count_yields_empty 737425 737426 (-3) (initial [4; 5]));
    [reflexivity | lia].
Defined.


Section Origins.
Variable utcoffset : Z.

Local Abbreviation map_loop :=
  (GitTransferFixed.commit_date_map_loop utcoffset).
Local Abbreviation arms_loop := (Gitcheat.env_filter_loop utcoffset).
Local Abbreviation ts := (timestamp utcoffset).


Lemma case_lookup_app (l1 l2 : list Gitcheat.arm) c :
  Gitcheat.case_lookup (l1 ++ l2) c =
  match Gitcheat.case_lookup l1 c with
  | Some t => Some t
  | None => Gitcheat.case_lookup l2 c
  end.
Proof.
  induction l1 as [|[p t] l1 IH]; [reflexivity |].
  simpl. destruct (decide (p = c)); [reflexivity | exact IH].
Qed.


Lemma map_loop_dom commits : forall i dates (m : gmap string Z),
  dom (map_loop i commits dates m) =
  dom m ∪ list_to_set (take (length dates - i) commits).
Proof.
  induction commits as [|a rest IH]; intros i dates m.
  - rewrite take_nil. simpl. set_solver.
  - cbn [GitTransferFixed.commit_date_map_loop]. rewrite guarded_lookup, IH.
    destruct (dates !! i) as [d|] eqn:E.
    + apply lookup_lt_Some in E.
      replace (length dates - i)%nat with (S (length dates - S i)) by lia.
      rewrite dom_insert_L. simpl. set_solver.
    + apply lookup_ge_None in E.
      replace (length dates - S i)%nat with 0%nat by lia.
      replace (length dates - i)%nat with 0%nat by lia.
      reflexivity.
Qed.

Lemma arms_loop_patterns commits : forall i dates,
  (arms_loop i commits dates []).*1 = take (length dates - i) commits.
Proof.
  induction commits as [|a rest IH]; intros i dates.
  - rewrite take_nil. reflexivity.
  - cbn [Gitcheat.env_filter_loop]. rewrite guarded_lookup.
    destruct (dates !! i) as [d|] eqn:E.
    + apply lookup_lt_Some in E.
      replace (length dates - i)%nat with (S (length dates - S i)) by lia.
      rewrite arms_loop_app, fmap_app, IH. reflexivity.
    + apply lookup_ge_None in E. rewrite IH.
      replace (length dates - S i)%nat with 0%nat by lia.
      replace (length dates - i)%nat with 0%nat by lia.
      reflexivity.
Qed.

(** A commit listed more than once: the shell takes the first arm. *)
Lemma case_lookup_first commits : forall i0 dates i c,
  commits !! i = Some c ->
  (forall k, (k < i)%nat -> commits !! k <> Some c) ->
  Gitcheat.case_lookup (arms_loop i0 commits dates []) c =
  ts <$> dates !! (i0 + i)%nat.
Proof.
  induction commits as [|a rest IH]; intros i0 dates i c Hi Hfirst;
    [discriminate |].
  cbn [Gitcheat.env_filter_loop]. rewrite guarded_lookup.
  destruct i as [|i]; simpl in Hi.
  - injection Hi as ->. rewrite Nat.add_0_r.
    destruct (dates !! i0) as [d|] eqn:E.
    + rewrite arms_loop_app, case_lookup_app. simpl.
      destruct (decide (c = c)); [reflexivity | congruence].
    + apply lookup_ge_None in E.
      rewrite (nil_length_inv (arms_loop (S i0) rest dates [])); [reflexivity |].
      rewrite arms_loop_length. lia.
  - assert (a <> c) as Hne.
    { intros ->. apply (Hfirst 0%nat); [lia | reflexivity]. }
    assert (forall k, (k < i)%nat -> rest !! k <> Some c) as Hfirst'.
    { intros k Hk. apply (Hfirst (S k)). lia. }
    replace (i0 + S i)%nat with (S i0 + i)%nat by lia.
    destruct (dates !! i0).
    + rewrite arms_loop_app, case_lookup_app. simpl.
      destruct (decide (a = c)); [congruence |].
      exact (IH (S i0) dates i c Hi Hfirst').
    + exact (IH (S i0) dates i c Hi Hfirst').
Qed.

(** A commit listed more than once: the dict keeps the last assignment. *)
Lemma map_loop_last commits : forall i0 dates (m : gmap string Z) j c,
  commits !! j = Some c ->
  (forall k, (j < k)%nat -> commits !! k <> Some c) ->
  (i0 + j < length dates)%nat ->
  map_loop i0 commits dates m !! c = ts <$> dates !! (i0 + j)%nat.
Proof.
  induction commits as [|a rest IH]; intros i0 dates m j c Hj Hlast Hlen;
    [discriminate |].
  cbn [GitTransferFixed.commit_date_map_loop]. rewrite guarded_lookup.
  destruct j as [|j]; simpl in Hj.
  - injection Hj as ->. rewrite Nat.add_0_r in *.
    assert (c ∉ rest) as Hnotin.
    { intros Hc. apply list_elem_of_lookup in Hc as [k Hk].
      apply (Hlast (S k)); [lia | exact Hk]. }
    rewrite map_loop_notin by exact Hnotin.
    destruct (lookup_lt_is_Some_2 dates i0 Hlen) as [d ->].
    simpl. apply lookup_insert_eq.
  - replace (i0 + S j)%nat with (S i0 + j)%nat by lia.
    apply IH; [exact Hj | | lia].
    intros k Hk. apply (Hlast (S k)). lia.
Qed.
End Origins.






(** X4: both correlation loops bind exactly the commits at the positions
    below the number of dates: the keys of [commit_date_map] are the first
    [len(random_dates)] commits, and the arms of the [case] script are those
    commits in their order.  With no dates nothing is bound. *)
Theorem loops_bind_leading_commits (utcoffset : Z) (commits : list string)
    (random_dates : list datetime) :
  dom (GitTransferFixed.commit_date_map_loop utcoffset 0 commits random_dates ∅)
  = list_to_set (take (length random_dates) commits) /\
  (Gitcheat.env_filter_loop utcoffset 0 commits random_dates []).*1
  = take (length random_dates) commits.
Proof.
  split.
  - rewrite map_loop_dom, dom_empty_L, Nat.sub_0_r.
    apply (left_id_L ∅ (∪)).
  - rewrite arms_loop_patterns, Nat.sub_0_r. reflexivity.
Qed.

(** X5: a commit listed more than once is treated differently by the two
    scripts.  The shell takes the first arm that matches, so [gitcheat.py]
    gives the commit the date at its first position; the dict keeps the
    last assignment, so [git_transfer_fixed.py] gives it the date at its
    last position. *)
Theorem repeated_commit_first_or_last (utcoffset : Z) (commits : list string)
    (random_dates : list datetime) (c : string) (i j : nat) :
  commits !! i = Some c ->
  (forall k, (k < i)%nat -> commits !! k <> Some c) ->
  commits !! j = Some c ->
  (forall k, (j < k)%nat -> commits !! k <> Some c) ->
  (j < length random_dates)%nat ->
  Gitcheat.case_lookup
    (Gitcheat.env_filter_loop utcoffset 0 commits random_dates []) c
  = timestamp utcoffset <$> random_dates !! i /\
  GitTransferFixed.commit_date_map_loop utcoffset 0 commits random_dates ∅ !! c
  = timestamp utcoffset <$> random_dates !! j.
Proof.
  intros Hi Hfirst Hj Hlast Hlen. split.
  - exact (case_lookup_first utcoffset commits 0 random_dates i c Hi Hfirst).
  - exact (map_loop_last utcoffset commits 0 random_dates ∅ j c Hj Hlast Hlen).
Qed.

Lemma repeated_commit_first_or_last_witness :
  let commits := ["a"; "b"; "a"]%string in
  let dates := [Datetime 737425 5; Datetime 737425 7; Datetime 737426 9] in
  Gitcheat.case_lookup (Gitcheat.env_filter_loop 0 0 commits dates []) "a"%string
  = Some 1577836805 /\
  GitTransferFixed.commit_date_map_loop 0 0 commits dates ∅ !! "a"%string
  = Some 1577923209.
Proof.
  intros commits dates.
  apply (repeated_commit_first_or_last 0 commits dates "a"%string 0 2).
  - reflexivity.
  - intros k Hk. lia.
  - reflexivity.
  - intros k Hk. destruct k as [|[|[|k]]]; try lia. discriminate.
  - simpl. lia.
Defined.

Lemma map_loop_no_dates utcoffset commits : forall i (m : gmap string Z),
  GitTransferFixed.commit_date_map_loop utcoffset i commits [] m = m.
Proof.
  induction commits as [|a rest IH]; intros i m; [reflexivity |].
  cbn [GitTransferFixed.commit_date_map_loop]. rewrite guarded_lookup.
  rewrite lookup_nil. apply IH.
Qed.

(** X6: on a range that is not valid neither script stops.  Both report
    "Start date must be before end date" and go on with an empty mapping: the
    dict of [git_transfer_fixed.py] is empty and the [case] script of
    [gitcheat.py] has no arm, so the history rewrite that follows changes no
    date. *)
Theorem invalid_range_binds_nothing
    (utcoffset start_date end_date commit_count : Z) (commits : list string)
    (w : world) :
  ~ dt_lt (strptime start_date) (strptime end_date) ->
  (exists w',
     GitTransferFixed.transfer_repo_modify_dates utcoffset
       start_date end_date commit_count commits w = (Ok ∅, w') /\
     (ERROR, "Start date must be before end date"%string) ∈ log w') /\
  Gitcheat.transfer_repo_modify_dates utcoffset
    start_date end_date commit_count commits w =
  (Ok [], logged ERROR "Start date must be before end date" w).
Proof.
  intros Hinv. rewrite strptime_lt in Hinv.
  assert (end_date <= start_date) as Hle by lia.
  pose proof (generate_invalid start_date end_date commit_count w Hle) as Hgen.
  split.
  - destruct commits as [|a rest].
    + eexists. split.
      * rewrite (fixed_step_equal utcoffset _ _ _ [] _ _ _ Hgen eq_refl).
        reflexivity.
      * simpl. apply elem_of_app. right. apply list_elem_of_singleton.
        reflexivity.
    + eexists. split.
      * erewrite (fixed_step_regenerate utcoffset _ _ _ _ _ _ _ Hgen);
          [| simpl; lia | apply generate_invalid; exact Hle].
        rewrite map_loop_no_dates. reflexivity.
      * simpl. apply elem_of_app. right. apply list_elem_of_singleton.
        reflexivity.
  - rewrite (gitcheat_step utcoffset _ _ _ _ _ _ _ Hgen).
    rewrite (nil_length_inv (Gitcheat.env_filter_loop utcoffset 0 commits [] []));
      [reflexivity |].
    rewrite arms_loop_length. simpl. lia.
Qed.

Lemma invalid_range_binds_nothing_witness :
  ~ dt_lt (strptime 737426) (strptime 737425) /\
  Gitcheat.transfer_repo_modify_dates 0 737426 737425 2 ["c0"; "c1"]%string
    (initial [3; 4]) =
  (Ok [], logged ERROR "Start date must be before end date" (initial [3; 4])).
Proof.
  assert (~ dt_lt (strptime 737426) (strptime 737425)) as H by discriminate.
  split; [exact H |].
  apply (invalid_range_binds_nothing 0 737426 737425 2 ["c0"; "c1"]%string
           (initial [3; 4]) H).
Defined.

(** X7: in [git_transfer_fixed.py], on a valid range, when the commits
    outnumber the requested dates, the first batch of dates is thrown away
    whole: the mapping is built from the draws that follow the first batch,
    two for each commit, one warning is logged, and every commit is bound. *)
Theorem regeneration_discards_first_batch
    (utcoffset start_date end_date commit_count : Z) (commits : list string)
    (w : world) :
  dt_lt (strptime start_date) (strptime end_date) ->
  (Z.to_nat commit_count < length commits)%nat ->
  let n := Z.to_nat commit_count in
  let after_first_batch :=
    {| draws := draws w; cursor := (2 * n + cursor w)%nat; log := log w |} in
  exists dates2,
    generate_random_date_range start_date end_date (Z.of_nat (length commits))
      after_first_batch
    = (Ok dates2,
       {| draws := draws w;
          cursor := (2 * length commits + (2 * n + cursor w))%nat;
          log := log w |}) /\
    length dates2 = length commits /\
    GitTransferFixed.transfer_repo_modify_dates utcoffset
      start_date end_date commit_count commits w =
    (Ok (GitTransferFixed.commit_date_map_loop utcoffset 0 commits dates2 ∅),
     {| draws := draws w;
        cursor := (2 * length commits + (2 * n + cursor w))%nat;
        log := log w ++
               [(WARNING,
                 GitTransferFixed.mismatch_message (length commits) n)] |}).
Proof.
  intros Hlt Hn n w1. apply strptime_lt in Hlt.
  pose proof (generate_valid start_date end_date commit_count w Hlt) as Hgen.
  fold n in Hgen.
  set (dates1 := merge_sort dt_le (candidates start_date end_date w n)) in Hgen.
  assert (length dates1 = n) as Hlen1.
  { unfold dates1. rewrite merge_sort_Permutation. apply length_candidates. }
  exists (merge_sort dt_le
            (candidates start_date end_date w1 (length commits))).
  split; [| split].
  - rewrite generate_valid by exact Hlt. rewrite Nat2Z.id. reflexivity.
  - rewrite merge_sort_Permutation. apply length_candidates.
  - assert (generate_random_date_range start_date end_date
              (Z.of_nat (length commits))
              (logged WARNING
                 (GitTransferFixed.mismatch_message
                    (length commits) (length dates1))
                 (advance (2 * n) w))
            = (Ok (merge_sort dt_le
                     (candidates start_date end_date w1 (length commits))),
               advance (2 * length commits)
                 (logged WARNING
                    (GitTransferFixed.mismatch_message
                       (length commits) (length dates1))
                    (advance (2 * n) w)))) as Hgen2.
    { rewrite generate_valid by exact Hlt. rewrite Nat2Z.id. reflexivity. }
    assert (length dates1 < length commits)%nat as Hlt' by lia.
    rewrite (fixed_step_regenerate utcoffset _ _ _ _ _ _ _ Hgen _ _ Hlt' Hgen2).
    rewrite Hlen1. reflexivity.
Qed.

Lemma regeneration_discards_first_batch_witness :
  dt_lt (strptime 737425) (strptime 737426) /\
  (Z.to_nat 1 < length ["c0"; "c1"]%string)%nat /\
  exists dates2,
    length dates2 = 2%nat /\
    GitTransferFixed.transfer_repo_modify_dates 0 737425 737426 1
      ["c0"; "c1"]%string (initial [1; 9; 0; 5; 0; 7]) =
    (Ok (GitTransferFixed.commit_date_map_loop 0 0 ["c0"; "c1"]%string dates2 ∅),
     {| draws := draws_of [1; 9; 0; 5; 0; 7]; cursor := 6;
        log := [(WARNING,
                 "Commit count mismatch: 2 commits vs 1 dates"%string)] |}).
Proof.
  assert (dt_lt (strptime 737425) (strptime 737426)) as H1 by reflexivity.
  assert (Z.to_nat 1 < length ["c0"; "c1"]%string)%nat as H2 by (simpl; lia).
  split; [exact H1 |]. split; [exact H2 |].
  destruct (regeneration_discards_first_batch 0 737425 737426 1
              ["c0"; "c1"]%string (initial [1; 9; 0; 5; 0; 7]) H1 H2)
    as (dates2 & _ & Hlen & Hstep).
  exists dates2. split; [exact Hlen | exact Hstep].
Defined.

(** * Properties of the text functions *)

(** ** Strings *)

Lemma app_cons (c : ascii) (a b : string) :
  String c a +:+ b = String c (a +:+ b).
Proof. reflexivity. Qed.

Lemma app_nil_s (b : string) : EmptyString +:+ b = b.
Proof. reflexivity. Qed.

Lemma app_empty_r (s : string) : s +:+ EmptyString = s.
Proof.
  induction s as [|c s IH]; [reflexivity | rewrite app_cons, IH; reflexivity].
Qed.


Lemma length_app_s (a b : string) :
  String.length (a +:+ b) = (String.length a + String.length b)%nat.
Proof.
  induction a as [|x a IH]; [reflexivity |].
  rewrite app_cons. simpl. rewrite IH. reflexivity.
Qed.

Lemma occurs_empty c : ~ occurs c EmptyString.
Proof. unfold occurs. simpl. apply not_elem_of_nil. Qed.

Lemma occurs_cons c a s : occurs c (String a s) <-> c = a \/ occurs c s.
Proof. unfold occurs. simpl. apply elem_of_cons. Qed.

Lemma occurs_app c a b : occurs c (a +:+ b) <-> occurs c a \/ occurs c b.
Proof.
  induction a as [|x a IH].
  - rewrite app_nil_s.
    split; [auto | intros [H | H]; [destruct (occurs_empty c H) | exact H]].
  - rewrite app_cons, !occurs_cons, IH. tauto.
Qed.

Lemma startswith_app p s : startswith p (p +:+ s) = true.
Proof.
  induction p as [|a p IH]; [reflexivity |].
  rewrite app_cons. simpl.
  destruct (decide (a = a)); [exact IH | congruence].
Qed.

Lemma startswith_inv p : forall s,
  startswith p s = true -> exists rest, s = p +:+ rest.
Proof.
  induction p as [|a p IH]; intros s H; simpl in H.
  - exists s. reflexivity.
  - destruct s as [|b s]; [discriminate |].
    destruct (decide (a = b)) as [-> |]; [| discriminate].
    destruct (IH s H) as [rest ->]. exists rest. reflexivity.
Qed.

Lemma startswith_iff p s :
  startswith p s = true <-> exists rest, s = p +:+ rest.
Proof.
  split; [apply startswith_inv |]. intros [rest ->]. apply startswith_app.
Qed.

(** ** [validate_repo_url] *)

(** X8: [validate_repo_url] looks at the beginning of the URL and at
    nothing else.  A URL that starts with [http://], [https://] or [git@]
    is accepted, the state untouched; every other URL is reported ("Invalid
    repository URL: ...") and the script exits with status 1. *)
Theorem validate_repo_url_prefix_only (url : string) (w : world) :
  let accepted :=
    exists rest, url = "http://" +:+ rest \/ url = "https://" +:+ rest \/
                 url = "git@" +:+ rest in
  (accepted -> validate_repo_url url w = (Returned tt, w)) /\
  (~ accepted ->
   validate_repo_url url w =
   (Exited 1, logged ERROR ("Invalid repository URL: " +:+ url) w)).
Proof.
  intros accepted. unfold validate_repo_url.
  destruct (startswith "http://" url) eqn:E1;
    [| destruct (startswith "https://" url) eqn:E2;
       [| destruct (startswith "git@" url) eqn:E3]]; simpl.
  - split; [reflexivity |]. intros Hn. exfalso. apply Hn.
    apply startswith_inv in E1 as [rest ->]. exists rest. auto.
  - split; [reflexivity |]. intros Hn. exfalso. apply Hn.
    apply startswith_inv in E2 as [rest ->]. exists rest. auto.
  - split; [reflexivity |]. intros Hn. exfalso. apply Hn.
    apply startswith_inv in E3 as [rest ->]. exists rest. auto.
  - split; [| reflexivity].
    intros [rest [-> | [-> | ->]]].
    + rewrite startswith_app in E1. discriminate.
    + rewrite startswith_app in E2. discriminate.
    + rewrite startswith_app in E3. discriminate.
Qed.

Lemma validate_repo_url_prefix_only_witness :
  validate_repo_url "git@github.com:user/repo.git" (initial []) =
  (Returned tt, initial []) /\
  validate_repo_url "ssh://git@github.com/user/repo.git" (initial []) =
  (Exited 1,
   logged ERROR "Invalid repository URL: ssh://git@github.com/user/repo.git"
     (initial [])).
Proof.
  split.
  - apply (validate_repo_url_prefix_only "git@github.com:user/repo.git"
             (initial [])).
    exists "github.com:user/repo.git". auto.
  - apply (validate_repo_url_prefix_only "ssh://git@github.com/user/repo.git"
             (initial [])).
    intros [rest [E | [E | E]]]; cbv in E; discriminate E.
Defined.

(** ** The regular expression engine *)

Lemma substring_prefix (p q : string) :
  String.substring 0 (String.length p) (p +:+ q) = p.
Proof.
  induction p as [|c p IH].
  - rewrite app_nil_s. destruct q; reflexivity.
  - rewrite app_cons. cbn [String.length String.substring]. rewrite IH.
    reflexivity.
Qed.

Lemma consumed_app (p q : string) : consumed (p +:+ q) q = p.
Proof.
  unfold consumed. rewrite length_app_s.
  replace (String.length p + String.length q - String.length q)%nat
    with (String.length p) by lia.
  apply substring_prefix.
Qed.

Lemma plus_lazy_shortest {X} cs p : forall q (k : string -> option X) x,
  p <> EmptyString ->
  (forall c, occurs c p -> c ∉ cs) ->
  k q = Some x ->
  (forall p1 p2, p = p1 +:+ p2 -> p1 <> EmptyString -> p2 <> EmptyString ->
     k (p2 +:+ q) = None) ->
  plus_lazy cs (p +:+ q) k = Some x.
Proof.
  induction p as [|c p IH]; intros q k x Hne Hcs Hk Hshort; [congruence |].
  rewrite app_cons. simpl.
  destruct (decide (c ∈ cs)) as [Hin | _].
  { exfalso. apply (Hcs c); [apply occurs_cons; auto | exact Hin]. }
  destruct p as [|c' p'].
  - rewrite app_nil_s, Hk. reflexivity.
  - rewrite (Hshort (String c EmptyString) (String c' p')); [| reflexivity | discriminate | discriminate].
    apply IH; [discriminate | | exact Hk |].
    + intros a Ha. apply Hcs, occurs_cons. auto.
    + intros p1 p2 E Hp1 Hp2. apply (Hshort (String c p1) p2); [| discriminate | exact Hp2].
      rewrite app_cons, E. reflexivity.
Qed.

Lemma plus_lazy_fails {X} cs : forall s (k : string -> option X),
  (forall p q, s = p +:+ q -> p <> EmptyString ->
     (forall c, occurs c p -> c ∉ cs) -> k q = None) ->
  plus_lazy cs s k = None.
Proof.
  induction s as [|c s IH]; intros k Hk; [reflexivity |].
  simpl. destruct (decide (c ∈ cs)) as [| Hc]; [reflexivity |].
  assert (forall a, occurs a (String c EmptyString) -> a ∉ cs) as Hone.
  { intros a Ha. apply occurs_cons in Ha as [-> | Ha]; [exact Hc |].
    destruct (occurs_empty a Ha). }
  rewrite (Hk (String c EmptyString) s); [| reflexivity | discriminate | exact Hone].
  apply IH. intros p q E Hp Hcs. apply (Hk (String c p) q); [| discriminate |].
  - rewrite app_cons, E. reflexivity.
  - intros a Ha. apply occurs_cons in Ha as [-> | Ha]; [exact Hc | auto].
Qed.

Lemma plus_lazy_inv {X} cs : forall s (k : string -> option X) x,
  plus_lazy cs s k = Some x ->
  exists p q, s = p +:+ q /\ p <> EmptyString /\
    (forall c, occurs c p -> c ∉ cs) /\ k q = Some x.
Proof.
  induction s as [|c s IH]; intros k x H; [discriminate |].
  simpl in H. destruct (decide (c ∈ cs)) as [| Hc]; [discriminate |].
  destruct (k s) as [y|] eqn:E.
  - injection H as <-. exists (String c EmptyString), s.
    split; [reflexivity |]. split; [discriminate |]. split; [| exact E].
    intros a Ha. apply occurs_cons in Ha as [-> | Ha]; [exact Hc |].
    destruct (occurs_empty a Ha).
  - apply IH in H as (p & q & -> & Hp & Hcs & Hk).
    exists (String c p), q. split; [reflexivity |]. split; [discriminate |].
    split; [| exact Hk].
    intros a Ha. apply occurs_cons in Ha as [-> | Ha]; [exact Hc | auto].
Qed.


Lemma plus_greedy_inv {X} cs : forall s (k : string -> option X) x,
  plus_greedy cs s k = Some x ->
  exists p q, s = p +:+ q /\ p <> EmptyString /\
    (forall c, occurs c p -> c ∉ cs) /\ k q = Some x.
Proof.
  induction s as [|c s IH]; intros k x H; [discriminate |].
  simpl in H. destruct (decide (c ∈ cs)) as [| Hc]; [discriminate |].
  destruct (plus_greedy cs s k) as [y|] eqn:E.
  - injection H as <-. apply IH in E as (p & q & -> & Hp & Hcs & Hk).
    exists (String c p), q. split; [reflexivity |]. split; [discriminate |].
    split; [| exact Hk].
    intros a Ha. apply occurs_cons in Ha as [-> | Ha]; [exact Hc | auto].
  - exists (String c EmptyString), s.
    split; [reflexivity |]. split; [discriminate |]. split; [| exact H].
    intros a Ha. apply occurs_cons in Ha as [-> | Ha]; [exact Hc |].
    destruct (occurs_empty a Ha).
Qed.


Lemma rmatch_lit_inv p : forall s caps k x,
  rmatch (lit p) s caps k = Some x ->
  exists rest, s = p +:+ rest /\ k rest caps = Some x.
Proof.
  induction p as [|c p IH]; intros s caps k x H.
  - exists s. split; [reflexivity | exact H].
  - simpl in H. destruct s as [|c' s]; [discriminate |].
    destruct (decide (c = c')) as [<- |]; [| discriminate].
    apply IH in H as (rest & -> & Hk). exists rest. split; [reflexivity | exact Hk].
Qed.

Lemma search_inv r : forall s caps,
  search r s = Some caps ->
  exists a b, s = a +:+ b /\ rmatch r b [] (fun _ c => Some c) = Some caps.
Proof.
  induction s as [|c s IH]; intros caps H; simpl in H.
  - destruct (rmatch r EmptyString [] _) eqn:E; [| discriminate].
    injection H as <-. exists EmptyString, EmptyString. split; [reflexivity | exact E].
  - destruct (rmatch r (String c s) [] _) eqn:E.
    + injection H as <-. exists EmptyString, (String c s). split; [reflexivity | exact E].
    + apply IH in H as (a & b & -> & Hm). exists (String c a), b.
      split; [reflexivity | exact Hm].
Qed.

Lemma search_skip r a : forall b caps,
  (forall a1 a2, a = a1 +:+ a2 -> a2 <> EmptyString ->
     rmatch r (a2 +:+ b) [] (fun _ c => Some c) = None) ->
  rmatch r b [] (fun _ c => Some c) = Some caps ->
  search r (a +:+ b) = Some caps.
Proof.
  induction a as [|c a IH]; intros b caps Hfail Hm.
  - rewrite app_nil_s. destruct b; simpl; rewrite Hm; reflexivity.
  - rewrite app_cons. simpl. rewrite <- app_cons.
    rewrite (Hfail EmptyString (String c a)); [| reflexivity | discriminate].
    apply IH; [| exact Hm].
    intros a1 a2 E Ha2. apply (Hfail (String c a1) a2); [| exact Ha2].
    rewrite app_cons, E. reflexivity.
Qed.

Lemma search_none r : forall s,
  (forall a b, s = a +:+ b -> rmatch r b [] (fun _ c => Some c) = None) ->
  search r s = None.
Proof.
  induction s as [|c s IH]; intros H; simpl.
  - rewrite (H EmptyString EmptyString); reflexivity.
  - rewrite (H EmptyString (String c s)); [| reflexivity].
    apply IH. intros a b E. apply (H (String c a) b).
    rewrite app_cons, E. reflexivity.
Qed.

(** ** The two patterns *)

Local Abbreviation found := (fun (_ : string) (c : captures) => Some c).

(** What is left of the first pattern after group 1: [(\.git)?$]. *)
Local Abbreviation tail_match q caps :=
  (rmatch (Cat (Opt (Group 2 (lit ".git"))) EndAnchor) q caps found).

Ltac no_occurrence :=
  let H := fresh in
  intros H;
  repeat (apply occurs_cons in H as [H | H]; [discriminate |]);
  exact (occurs_empty _ H).

Lemma at_end_inv s :
  at_end s = true -> s = EmptyString \/ s = String newline EmptyString.
Proof.
  destruct s as [|c [|c' s]]; simpl; intros H; [auto | | discriminate].
  destruct (decide (c = "010"%char)) as [-> |]; [auto | discriminate].
Qed.

Lemma tail_match_inv q caps0 caps :
  tail_match q caps0 = Some caps ->
  (q = ".git" \/ q = EmptyString \/ occurs newline q) /\
  ~ occurs "/"%char q /\
  (caps = caps0 \/ exists t, caps = (2%nat, t) :: caps0).
Proof.
  cbn [rmatch].
  destruct (rmatch (lit ".git") q caps0 _) as [x|] eqn:E.
  - intros [= <-]. apply rmatch_lit_inv in E as (rest & -> & H).
    destruct (at_end rest) eqn:Hend; [| discriminate]. injection H as <-.
    apply at_end_inv in Hend as [-> | ->].
    + split; [left; reflexivity |]. split; [| right; eauto].
      no_occurrence.
    + split; [right; right |]. 2: split; [| right; eauto].
      * apply occurs_app. right. apply occurs_cons. auto.
      * no_occurrence.
  - destruct (at_end q) eqn:Hend; [| discriminate]. intros [= <-].
    apply at_end_inv in Hend as [-> | ->].
    + split; [auto |]. split; [apply occurs_empty | auto].
    + split; [right; right; apply occurs_cons; auto |]. split; [| auto].
      no_occurrence.
Qed.

Lemma standard_unfold t :
  rmatch standard_pattern (String "/" t) [] found =
  plus_lazy ["/"%char] t (fun q => tail_match q [(1%nat, consumed t q)]).
Proof.
  unfold standard_pattern. cbn [rmatch].
  destruct (decide ("/"%char = "/"%char)); [reflexivity | congruence].
Qed.

Lemma not_in_slash c : c ∉ ["/"%char] <-> c <> "/"%char.
Proof. rewrite list_elem_of_singleton. reflexivity. Qed.

(** No match of the first pattern starts where a slash comes later. *)
Lemma standard_fail_slash c v :
  occurs "/"%char v -> rmatch standard_pattern (String c v) [] found = None.
Proof.
  intros Hv. destruct (decide (c = "/"%char)) as [-> | Hc].
  - rewrite standard_unfold. apply plus_lazy_fails.
    intros p q -> Hp Hcs.
    destruct (rmatch _ q _ _) as [caps|] eqn:E; [| reflexivity].
    apply tail_match_inv in E as (_ & Hq & _).
    apply occurs_app in Hv as [Hv | Hv]; [| contradiction].
    exfalso. apply (Hcs _ Hv). apply list_elem_of_singleton. reflexivity.
  - unfold standard_pattern. cbn [rmatch].
    destruct (decide ("/"%char = c)); [congruence | reflexivity].
Qed.

Lemma standard_fail_other c v :
  c <> "/"%char -> rmatch standard_pattern (String c v) [] found = None.
Proof.
  intros Hc. unfold standard_pattern. cbn [rmatch].
  destruct (decide ("/"%char = c)); [congruence | reflexivity].
Qed.

(** The match at the last slash is the match of the search. *)
Lemma search_standard_last base t caps :
  rmatch standard_pattern (String "/" t) [] found = Some caps ->
  search standard_pattern (base +:+ String "/" t) = Some caps.
Proof.
  intros Hm. apply search_skip; [| exact Hm].
  intros a1 a2 _ Ha2. destruct a2 as [|c a2]; [congruence |].
  rewrite app_cons. apply standard_fail_slash.
  apply occurs_app. right. apply occurs_cons. auto.
Qed.

Lemma search_standard_no_slash s :
  ~ occurs "/"%char s -> search standard_pattern s = None.
Proof.
  intros Hs. apply search_none. intros a b -> .
  destruct b as [|c b]; [reflexivity |].
  apply standard_fail_other. intros ->. apply Hs, occurs_app. right.
  apply occurs_cons. auto.
Qed.


Lemma consumed_all (t : string) : consumed t EmptyString = t.
Proof.
  rewrite <- (app_empty_r t) at 1. apply consumed_app.
Qed.

Lemma length_zero_s (s : string) : String.length s = 0%nat -> s = EmptyString.
Proof. destruct s; [reflexivity | discriminate]. Qed.

(** The first pattern on a last segment without ".git" at its end. *)
Lemma standard_match_plain name :
  name <> EmptyString ->
  ~ occurs "/"%char name -> ~ occurs newline name ->
  (forall x, x <> EmptyString -> name <> x +:+ ".git") ->
  rmatch standard_pattern (String "/" name) [] found = Some [(1%nat, name)].
Proof.
  intros Hne Hslash Hnl Hgit. rewrite standard_unfold.
  rewrite <- (app_empty_r name) at 1.
  erewrite plus_lazy_shortest; [| exact Hne | | reflexivity |].
  - rewrite consumed_all. reflexivity.
  - intros c Hc ->%list_elem_of_singleton. contradiction.
  - intros p1 p2 E Hp1 Hp2. rewrite app_empty_r.
    destruct (rmatch _ p2 _ _) as [caps|] eqn:Em; [| reflexivity].
    exfalso. apply tail_match_inv in Em as ([-> | [-> | Hn]] & _).
    + apply (Hgit p1 Hp1 E).
    + congruence.
    + apply Hnl. rewrite E. apply occurs_app. auto.
Qed.

(** The first pattern on a last segment [stem.git]. *)
Lemma standard_match_suffix stem :
  stem <> EmptyString ->
  ~ occurs "/"%char stem -> ~ occurs newline stem ->
  rmatch standard_pattern (String "/" (stem +:+ ".git")) [] found
  = Some [(2%nat, ".git"); (1%nat, stem)].
Proof.
  intros Hne Hslash Hnl. rewrite standard_unfold.
  erewrite plus_lazy_shortest; [| exact Hne | | |].
  - reflexivity.
  - intros c Hc ->%list_elem_of_singleton. contradiction.
  - rewrite consumed_app. reflexivity.
  - intros p1 p2 E Hp1 Hp2.
    destruct (rmatch _ (p2 +:+ ".git") _ _) as [caps|] eqn:Em; [| reflexivity].
    exfalso. apply tail_match_inv in Em as ([E' | [E' | Hn]] & _).
    + apply (f_equal String.length) in E'. rewrite length_app_s in E'.
      simpl in E'. apply Hp2, length_zero_s. lia.
    + apply (f_equal String.length) in E'. rewrite length_app_s in E'.
      simpl in E'. lia.
    + apply occurs_app in Hn as [Hn | Hn].
      * apply Hnl. rewrite E. apply occurs_app. auto.
      * revert Hn. no_occurrence.
Qed.

Lemma replace_from_no_occurrence old new : forall s,
  old <> EmptyString ->
  (forall a b, s <> a +:+ old +:+ b) ->
  replace_from old new 0 s = s.
Proof.
  induction s as [|c s IH]; intros Hold Hno; [reflexivity |].
  simpl. destruct (startswith old (String c s)) eqn:E.
  - apply startswith_inv in E as [rest E]. destruct (Hno EmptyString rest E).
  - rewrite IH; [reflexivity | exact Hold |].
    intros a b ->. apply (Hno (String c a) b). reflexivity.
Qed.


Lemma github_inv b caps :
  rmatch github_pattern b [] found = Some caps ->
  exists user repo rest,
    b = "github.com/" +:+ user +:+ "/" +:+ repo +:+ rest /\
    repo <> EmptyString /\
    (forall c, occurs c repo -> c <> "/"%char /\ c <> "."%char) /\
    caps = [(1%nat, repo)].
Proof.
  unfold github_pattern. cbn [rmatch]. intros H.
  apply rmatch_lit_inv in H as (t & -> & H).
  apply plus_greedy_inv in H as (user & q & -> & _ & _ & H).
  destruct q as [|c q']; [discriminate |].
  destruct (decide ("/"%char = c)) as [<- |]; [| discriminate].
  apply plus_greedy_inv in H as (repo & rest & -> & Hne & Hcs & H).
  injection H as <-. rewrite consumed_app.
  exists user, repo, rest. split; [reflexivity |]. split; [exact Hne |].
  split; [| reflexivity].
  intros c Hc. specialize (Hcs c Hc).
  rewrite !not_elem_of_cons in Hcs. tauto.
Qed.

Lemma search_github_no_slash s :
  ~ occurs "/"%char s -> search github_pattern s = None.
Proof.
  intros Hs. apply search_none. intros a b ->.
  destruct (rmatch github_pattern b [] found) as [caps|] eqn:E; [| reflexivity].
  exfalso. apply github_inv in E as (user & repo & rest & -> & _).
  apply Hs. apply occurs_app. right.
  apply occurs_app. left.
  do 10 (apply occurs_cons; right). apply occurs_cons. left. reflexivity.
Qed.

Lemma standard_inv b caps :
  rmatch standard_pattern b [] found = Some caps ->
  exists p q,
    b = String "/" (p +:+ q) /\ p <> EmptyString /\ ~ occurs "/"%char p /\
    group 1 caps = Some p.
Proof.
  intros H. destruct b as [|c t].
  { unfold standard_pattern in H. cbn [rmatch] in H. discriminate. }
  destruct (decide (c = "/"%char)) as [-> | Hc].
  2: { rewrite standard_fail_other in H by exact Hc. discriminate. }
  rewrite standard_unfold in H.
  apply plus_lazy_inv in H as (p & q & -> & Hne & Hcs & H).
  rewrite consumed_app in H.
  apply tail_match_inv in H as (_ & _ & Hcaps).
  exists p, q. split; [reflexivity |]. split; [exact Hne |]. split.
  - intros Hp. apply (Hcs _ Hp). apply list_elem_of_singleton. reflexivity.
  - destruct Hcaps as [-> | [t ->]]; reflexivity.
Qed.

Lemma occurs_replace_from c old new : forall s skip,
  occurs c (replace_from old new skip s) -> occurs c s \/ occurs c new.
Proof.
  induction s as [|a s IH]; intros skip H; [left; exact H |].
  simpl in H. destruct skip as [|n].
  - destruct (startswith old (String a s)).
    + apply occurs_app in H as [H | H]; [right; exact H |].
      apply IH in H as [H | H]; [left; apply occurs_cons; auto | right; exact H].
    + apply occurs_cons in H as [-> | H]; [left; apply occurs_cons; auto |].
      apply IH in H as [H | H]; [left; apply occurs_cons; auto | right; exact H].
  - apply IH in H as [H | H]; [left; apply occurs_cons; auto | right; exact H].
Qed.

(** ** [extract_repo_name] *)

Lemma extract_standard url caps p w :
  search standard_pattern url = Some caps ->
  group 1 caps = Some p ->
  extract_repo_name url w = (Ok (Some (str_replace ".git" EmptyString p)), w).
Proof.
  intros Hs Hg. unfold extract_repo_name. rewrite Hs, Hg. reflexivity.
Qed.

(** X9: the URL of a repository [name], with or without [.git] at its end,
    yields [name]: for every text before the last slash, when [name] is not
    empty and has no slash, no newline and no [.git] inside. *)
Theorem extract_repo_name_last_segment (base name : string) (w : world) :
  name <> EmptyString ->
  ~ occurs "/"%char name -> ~ occurs newline name ->
  (forall a b, name <> a +:+ ".git" +:+ b) ->
  extract_repo_name (base +:+ "/" +:+ name +:+ ".git") w = (Ok (Some name), w) /\
  extract_repo_name (base +:+ "/" +:+ name) w = (Ok (Some name), w).
Proof.
  intros Hne Hslash Hnl Hgit.
  assert (str_replace ".git" EmptyString name = name) as Hrep.
  { apply replace_from_no_occurrence; [discriminate | exact Hgit]. }
  assert (forall x, x <> EmptyString -> name <> x +:+ ".git") as Hend.
  { intros x _ E. apply (Hgit x EmptyString). exact E. }
  split.
  - pose proof (extract_standard _ _ name w
                  (search_standard_last base _ _
                     (standard_match_suffix name Hne Hslash Hnl)) eq_refl) as H.
    rewrite Hrep in H. exact H.
  - pose proof (extract_standard _ _ name w
                  (search_standard_last base _ _
                     (standard_match_plain name Hne Hslash Hnl Hend)) eq_refl)
      as H.
    rewrite Hrep in H. exact H.
Qed.

Lemma extract_repo_name_last_segment_witness :
  extract_repo_name "https://github.com/user/repo.git" (initial []) =
  (Ok (Some "repo"%string), initial []) /\
  extract_repo_name "git@github.com:user/repo" (initial []) =
  (Ok (Some "repo"%string), initial []).
Proof.
  assert ("repo"%string <> EmptyString) as H1 by discriminate.
  assert (~ occurs "/"%char "repo") as H2 by no_occurrence.
  assert (~ occurs newline "repo") as H3 by no_occurrence.
  assert (forall a b : string, "repo"%string <> a +:+ ".git" +:+ b) as H4.
  { intros a b E. assert (occurs "."%char "repo") as H; [| revert H; no_occurrence].
    rewrite E. apply occurs_app. right. apply occurs_cons. auto. }
  split.
  - apply (extract_repo_name_last_segment "https://github.com/user" "repo"
             (initial []) H1 H2 H3 H4).
  - apply (extract_repo_name_last_segment "git@github.com:user" "repo"
             (initial []) H1 H2 H3 H4).
Defined.

(** X10: [.replace(".git", "")] is applied to the whole of group 1, so
    every [.git] inside the last segment is removed, not only the one at
    its end: the name is the last segment (less a final [.git]) with all
    occurrences of [.git] taken out. *)
Theorem extract_repo_name_removes_every_git (base name : string) (w : world) :
  name <> EmptyString ->
  ~ occurs "/"%char name -> ~ occurs newline name ->
  extract_repo_name (base +:+ "/" +:+ name +:+ ".git") w =
  (Ok (Some (str_replace ".git" EmptyString name)), w) /\
  ((forall x, x <> EmptyString -> name <> x +:+ ".git") ->
   extract_repo_name (base +:+ "/" +:+ name) w =
   (Ok (Some (str_replace ".git" EmptyString name)), w)).
Proof.
  intros Hne Hslash Hnl. split.
  - exact (extract_standard _ _ name w
             (search_standard_last base _ _
                (standard_match_suffix name Hne Hslash Hnl)) eq_refl).
  - intros Hend.
    exact (extract_standard _ _ name w
             (search_standard_last base _ _
                (standard_match_plain name Hne Hslash Hnl Hend)) eq_refl).
Qed.

Lemma extract_repo_name_removes_every_git_witness :
  extract_repo_name "https://github.com/user/user.github.io" (initial []) =
  (Ok (Some "userhub.io"%string), initial []).
Proof.
  assert ("user.github.io"%string <> EmptyString) as H1 by discriminate.
  assert (~ occurs "/"%char "user.github.io") as H2 by no_occurrence.
  assert (~ occurs newline "user.github.io") as H3 by no_occurrence.
  destruct (extract_repo_name_removes_every_git "https://github.com/user"
              "user.github.io" (initial []) H1 H2 H3) as [_ H].
  apply H. intros x _ E.
  repeat (destruct x as [|? x];
          [cbv in E; discriminate E | rewrite app_cons in E; injection E as _ E]).
  destruct x; discriminate E.
Defined.

(** X11: a URL without any slash matches neither pattern: the function
    reports "Could not extract repository name from URL: ..." and returns
    [None]. *)
Theorem extract_repo_name_without_slash (url : string) (w : world) :
  ~ occurs "/"%char url ->
  extract_repo_name url w =
  (Ok None,
   logged ERROR ("Could not extract repository name from URL: " +:+ url) w).
Proof.
  intros Hs. unfold extract_repo_name.
  rewrite search_standard_no_slash, search_github_no_slash by exact Hs.
  reflexivity.
Qed.

Lemma extract_repo_name_without_slash_witness :
  extract_repo_name "repo.git" (initial []) =
  (Ok None,
   logged ERROR "Could not extract repository name from URL: repo.git"
     (initial [])).
Proof.
  apply (extract_repo_name_without_slash "repo.git" (initial [])).
  no_occurrence.
Defined.




(** X13: a name the function returns never has a slash in it, whatever
    the URL: the directory [<name>.git] that the caller enters and later
    removes is a single path component. *)
Theorem extract_repo_name_has_no_slash (url name : string) (w w' : world) :
  extract_repo_name url w = (Ok (Some name), w') ->
  ~ occurs "/"%char name.
Proof.
  unfold extract_repo_name.
  destruct (search standard_pattern url) as [caps|] eqn:E1.
  - apply search_inv in E1 as (a & b & _ & Hm).
    apply standard_inv in Hm as (p & q & _ & _ & Hp & ->).
    intros [= <- _] H. apply occurs_replace_from in H as [H | H].
    + contradiction.
    + exact (occurs_empty _ H).
  - destruct (search github_pattern url) as [caps|] eqn:E2.
    + apply search_inv in E2 as (a & b & _ & Hm).
      apply github_inv in Hm as (user & repo & rest & _ & _ & Hcs & ->).
      intros [= <- _] H. destruct (Hcs _ H) as [Hs _]. congruence.
    + intros H. cbv in H. discriminate H.
Qed.

Lemma extract_repo_name_has_no_slash_witness :
  ~ occurs "/"%char "repo".
Proof.
  apply (extract_repo_name_has_no_slash "https://github.com/user/repo.git"
           "repo" (initial []) (initial [])).
  vm_compute. reflexivity.
Defined.

(** ** Escaping *)


Lemma backslash_not_quote : backslash <> quote.
Proof. discriminate. Qed.







